(** * Unit.hpp (v0.16 engine): a shallow embedding of the compile-time unit algebra

    The C++ library computes units with templates: a compound unit is the type
    list [Unit<BaseUnit<...>, ...>], and the algebra is a set of partially
    specialised class templates resolved at build time.  Here a type list is a
    Rocq [list], a class template is a function on those lists, and a program
    the compiler refuses (no viable overload, a failed [static_assert], an
    unknown member) is [None]. *)

From Stdlib Require Import ZArith String List Bool Ascii Lia QArith Qpower Qfield Lqa.
Import ListNotations.
Open Scope string_scope.
Open Scope Z_scope.

Module extra.

(** ** [std::ratio<Num, Den>]

    A [std::ratio] type is identified by its template arguments: [ratio<2,2>]
    and [ratio<1,1>] are different types, though both have [num == den == 1]. *)
Record ratio := mk_ratio { r_num : Z; r_den : Z }.

Definition ratio_one : ratio := mk_ratio 1 1.

Definition ratio_eqb (a b : ratio) : bool :=
  (r_num a =? r_num b) && (r_den a =? r_den b).

(** The static members [ratio<N,D>::num] and [::den]: reduced, den > 0. *)
Definition ratio_sign (r : ratio) : Z := Z.sgn (r_num r) * Z.sgn (r_den r).
Definition ratio_gcd (r : ratio) : Z := Z.gcd (r_num r) (r_den r).
Definition num (r : ratio) : Z := ratio_sign r * Z.abs (r_num r) / ratio_gcd r.
Definition den (r : ratio) : Z := Z.abs (r_den r) / ratio_gcd r.

(** [std::ratio_multiply<R1, R2>] names the reduced type [ratio<U, V>]. *)
Definition ratio_multiply (a b : ratio) : ratio :=
  let p := mk_ratio (num a * num b) (den a * den b) in
  mk_ratio (num p) (den p).

Definition ratio_divide (a b : ratio) : ratio :=
  let p := mk_ratio (num a * den b) (den a * num b) in
  mk_ratio (num p) (den p).

(** ** [BaseUnit<BaseSymbol, Exponent, ScaleRatio, Prefix, SubSymbol,
    SubToBase, BaseToSub>]

    [FixedString] arguments are strings compared by value; the two function
    pointer arguments [SubToBase] and [BaseToSub] are compared by identity, so
    they are represented by the name of the function they point to. *)
Record BaseUnit := mk_BaseUnit {
  base_symbol : string;
  exp : Z;
  scale : ratio;
  prefix : string;
  sub_symbol : string;
  sub_to_base : string;
  base_to_sub : string
}.

(** [BaseUnit<BaseSymbol>] with every default argument:
    [std::ratio<1>], [""], [SubSymbol = BaseSymbol], [return_self<float_t>]. *)
Definition base_default (sym : string) : BaseUnit :=
  mk_BaseUnit sym 1 ratio_one "" sym "return_self" "return_self".

(** [Unit<BaseUnits...>]: the compound unit is the ordered type list. *)
Definition Unit := list BaseUnit.

(** Equality of two [BaseUnit] types: all seven template arguments agree. *)
Definition BaseUnit_eqb (a b : BaseUnit) : bool :=
  String.eqb (base_symbol a) (base_symbol b) && (exp a =? exp b)
  && ratio_eqb (scale a) (scale b) && String.eqb (prefix a) (prefix b)
  && String.eqb (sub_symbol a) (sub_symbol b)
  && String.eqb (sub_to_base a) (sub_to_base b)
  && String.eqb (base_to_sub a) (base_to_sub b).

Fixpoint Unit_eqb (u v : Unit) : bool :=
  match u, v with
  | [], [] => true
  | a :: u', b :: v' => BaseUnit_eqb a b && Unit_eqb u' v'
  | _, _ => false
  end.

(** The merging specialisation of [MultiplyBaseUnitByUnit] binds one
    [BaseSymbol, Scale, Prefix, SubSymbol, SubToBase, BaseToSub] for both
    descriptors: it applies when they agree on everything but the exponent. *)
Definition same_but_exp (a b : BaseUnit) : bool :=
  String.eqb (base_symbol a) (base_symbol b)
  && ratio_eqb (scale a) (scale b) && String.eqb (prefix a) (prefix b)
  && String.eqb (sub_symbol a) (sub_symbol b)
  && String.eqb (sub_to_base a) (sub_to_base b)
  && String.eqb (base_to_sub a) (base_to_sub b).

Definition with_exp (b : BaseUnit) (e : Z) : BaseUnit :=
  mk_BaseUnit (base_symbol b) e (scale b) (prefix b) (sub_symbol b)
    (sub_to_base b) (base_to_sub b).

(** [MultiplyBaseUnitByUnit<NewBaseUnit, CurrentUnit>]: walk the accumulator;
    on the first descriptor that matches [a] up to the exponent, replace it by
    the summed exponent (or drop it when the sum is 0); if none matches, [a]
    lands at the end ([Unit<>] case, then the heads are prepended back). *)
Fixpoint MultiplyBaseUnitByUnit (a : BaseUnit) (u : Unit) : Unit :=
  match u with
  | [] => [a]
  | h :: rest =>
      if same_but_exp a h then
        let sum := exp a + exp h in
        if sum =? 0 then rest else with_exp h sum :: rest
      else h :: MultiplyBaseUnitByUnit a rest
  end.

(** [MultiplyUnits<UnitA, UnitB>]: fold [B]'s descriptors, left to right,
    into the accumulator that starts as [A]. *)
Fixpoint MultiplyUnits (ua ub : Unit) : Unit :=
  match ub with
  | [] => ua
  | hb :: tb => MultiplyUnits (MultiplyBaseUnitByUnit hb ua) tb
  end.

(** [InvertBaseUnit] / [InvertUnit]: negate the exponent, keep the rest. *)
Definition InvertBaseUnit (b : BaseUnit) : BaseUnit := with_exp b (- exp b).

Fixpoint InvertUnit (u : Unit) : Unit :=
  match u with
  | [] => []
  | h :: t => InvertBaseUnit h :: InvertUnit t
  end.

(** [DivideUnits<A, B> = MultiplyUnits<A, InvertUnit<B>>]. *)
Definition DivideUnits (ua ub : Unit) : Unit := MultiplyUnits ua (InvertUnit ub).

(** ** Views used by the statements *)

(** Sum of the exponents that [u] carries on base symbol [s] (0 if absent). *)
Fixpoint exponent_in (u : Unit) (s : string) : Z :=
  match u with
  | [] => 0
  | h :: t => (if String.eqb (base_symbol h) s then exp h else 0) + exponent_in t s
  end.

Definition mentions (u : Unit) (s : string) : bool :=
  existsb (fun h => String.eqb (base_symbol h) s) u.

(** Exponent carried by descriptors that are [k] up to the exponent. *)
Fixpoint exponent_of_key (u : Unit) (k : BaseUnit) : Z :=
  match u with
  | [] => 0
  | h :: t => (if same_but_exp k h then exp h else 0) + exponent_of_key t k
  end.

Definition mentions_key (u : Unit) (k : BaseUnit) : bool :=
  existsb (same_but_exp k) u.

(** A well-formed compound unit: no two descriptors with the same metadata
    key, no zero exponent. *)
Fixpoint keys_distinct (u : Unit) : Prop :=
  match u with
  | [] => True
  | h :: t => mentions_key t h = false /\ keys_distinct t
  end.

Definition exps_nonzero (u : Unit) : Prop := Forall (fun b => exp b <> 0) u.

End extra.

(** ** The catalog entries the statements use ([namespace defaults]) *)
Module defaults.
Import extra.

(** [__unithpp_BASE_NOSCALE(NAME, SHORT)]: [Unit<BaseUnit<#SHORT>>]. *)
Definition BASE_NOSCALE (short : string) : Unit := [base_default short].

Definition meter : Unit := BASE_NOSCALE "m".
Definition second : Unit := BASE_NOSCALE "s".
Definition gram : Unit := BASE_NOSCALE "g".
Definition radians : Unit := BASE_NOSCALE "rad".

(** [__unithpp_SUB_NOSCALE(NAME, ORIGIN, SUB_SYMBOL, ...)]:
    [BaseUnit<#ORIGIN, 1, std::ratio<1>, "", #SUB_SYMBOL,
    temp_functions::__s2b__NAME, temp_functions::__b2s__NAME>]. *)
Definition SUB_NOSCALE (name origin sub_sym : string) : Unit :=
  [mk_BaseUnit origin 1 ratio_one "" sub_sym ("__s2b__" ++ name) ("__b2s__" ++ name)].

Definition mile : Unit := SUB_NOSCALE "mile" "m" "mi".
Definition degrees : Unit := SUB_NOSCALE "degrees" "rad" "deg".

(** [meter_per_second = decltype(meter{} / second{})]. *)
Definition meter_per_second : Unit := DivideUnits meter second.
Definition square_meter : Unit := MultiplyUnits meter meter.

End defaults.

(** ** Quantities

    [Quantity<ThisUnit, ThisValue>] holds one [raw_value]; its unit is part of
    its type.  The arithmetic of [ThisValue] ([float_t = double] throughout the
    catalog) is kept abstract behind the operations the header uses. *)
Class FloatOps (V : Type) := {
  fadd : V -> V -> V;
  fsub : V -> V -> V;
  fmul : V -> V -> V;
  fdiv : V -> V -> V;
  fneg : V -> V;
  fofZ : Z -> V
}.

Section Quantity.
Import extra.
Context {V : Type} `{FloatOps V}.

Record Quantity := mk_Quantity { UnitType : Unit; raw_value : V }.

(** [operator+(const Quantity& rhs)] / [operator-]: the parameter has the
    caller's own type, and the only converting constructors are [explicit],
    so the call is well-formed exactly when both operands have one type. *)
Definition add (q1 q2 : Quantity) : option Quantity :=
  if Unit_eqb (UnitType q1) (UnitType q2)
  then Some (mk_Quantity (UnitType q1) (fadd (raw_value q1) (raw_value q2)))
  else None.

Definition sub (q1 q2 : Quantity) : option Quantity :=
  if Unit_eqb (UnitType q1) (UnitType q2)
  then Some (mk_Quantity (UnitType q1) (fsub (raw_value q1) (raw_value q2)))
  else None.

(** The result of [operator*] / [operator/] between two quantities: a bare
    [raw_value] product when the result unit [is_same_v] as [Unit<>], else a
    [Quantity<ResultUnit>]. *)
Inductive Product :=
| Bare (v : V)
| Wrapped (q : Quantity).

Definition is_empty_unit (u : Unit) : bool :=
  match u with [] => true | _ => false end.

Definition mul (q1 q2 : Quantity) : Product :=
  let r := MultiplyUnits (UnitType q1) (UnitType q2) in
  if is_empty_unit r then Bare (fmul (raw_value q1) (raw_value q2))
  else Wrapped (mk_Quantity r (fmul (raw_value q1) (raw_value q2))).

Definition div (q1 q2 : Quantity) : Product :=
  let r := DivideUnits (UnitType q1) (UnitType q2) in
  if is_empty_unit r then Bare (fdiv (raw_value q1) (raw_value q2))
  else Wrapped (mk_Quantity r (fdiv (raw_value q1) (raw_value q2))).

(** Free [operator/(long double lhs, const Quantity<U, V>& rhs)]:
    [Quantity<InvertUnit<U>::type, V>(lhs / rhs.raw_value)]. *)
Definition scalar_div (k : V) (q : Quantity) : Quantity :=
  mk_Quantity (InvertUnit (UnitType q)) (fdiv k (raw_value q)).

(** [extra::ipow]: exponentiation by squaring, reciprocal base for a
    negative exponent.  The loop halves [exp], so [exp] rounds of fuel
    suffice. *)
Fixpoint ipow_loop (fuel : nat) (res base : V) (e : Z) : V :=
  match fuel with
  | O => res
  | S f =>
      if 0 <? e then
        let res' := if e mod 2 =? 1 then fmul res base else res in
        ipow_loop f res' (fmul base base) (e / 2)
      else res
  end.

Definition ipow (base : V) (e : Z) : V :=
  let base' := if e <? 0 then fdiv (fofZ 1) base else base in
  let e' := if e <? 0 then - e else e in
  ipow_loop (Z.to_nat e') (fofZ 1) base' e'.

(** The nested types a [BaseUnit<...>] declares: [using scale = ScaleRatio;]
    is the only one.  Naming any other member type is a build error. *)
Definition BaseUnit_member_type (b : BaseUnit) (name : string) : option ratio :=
  if String.eqb name "scale" then Some (scale b) else None.

(** [is_single_unit<T>::base_type]. *)
Definition single_base (u : Unit) : option BaseUnit :=
  match u with [b] => Some b | _ => None end.

(** The [requires]-clause of the converting constructor. *)
Definition convert_requires (target source : Unit) : bool :=
  match single_base target, single_base source with
  | Some tb, Some sb => String.eqb (base_symbol tb) (base_symbol sb) && (exp tb =? exp sb)
  | _, _ => false
  end.

(** [ThisUnit(rhs)]: with equal types the copy constructor is chosen (a
    non-template beats the template); otherwise the template converting
    constructor, whose body computes
    [SourceFactor = ratio_multiply<SourceBase::scale, SourceBase::sub_ratio>],
    the same for the target, and
    [raw_value = rhs.raw_value * ipow(Source/Target, TargetBase::exp)]. *)
Definition convert (target : Unit) (q : Quantity) : option Quantity :=
  if Unit_eqb target (UnitType q) then Some q
  else if convert_requires target (UnitType q) then
    match single_base target, single_base (UnitType q) with
    | Some tb, Some sb =>
        match BaseUnit_member_type sb "scale", BaseUnit_member_type sb "sub_ratio",
              BaseUnit_member_type tb "scale", BaseUnit_member_type tb "sub_ratio" with
        | Some ss, Some sr, Some ts, Some tr =>
            let conv := ratio_divide (ratio_multiply ss sr) (ratio_multiply ts tr) in
            let factor := fdiv (fofZ (num conv)) (fofZ (den conv)) in
            Some (mk_Quantity target (fmul (raw_value q) (ipow factor (exp tb))))
        | _, _, _, _ => None
        end
    | _, _ => None
    end
  else None.

(** [__unithpp_bring_rad_func(NAME)]: the parameter type pins
    [BaseUnit<"rad", 1, std::ratio<1>, "", SubSymbol, SubToBase, BaseToSub>];
    the body is [std::NAME(radians(q).raw_value)], a bare [V]. *)
Definition rad_param (u : Unit) : bool :=
  match u with
  | [b] => String.eqb (base_symbol b) "rad" && (exp b =? 1)
           && ratio_eqb (scale b) ratio_one && String.eqb (prefix b) ""
  | _ => false
  end.

Definition rad_func (f : V -> V) (q : Quantity) : option V :=
  if rad_param (UnitType q) then
    match convert defaults.radians q with
    | Some r => Some (f (raw_value r))
    | None => None
    end
  else None.

End Quantity.

Arguments Quantity V : clear implicits.
Arguments Product V : clear implicits.

(** ** [ApplyScale<Quantity<Unit, V>, Scalar, NewPrefix>] (the [atto] ... [exa]
    aliases).  The primary template fails its [static_assert]; the only
    specialisation takes [Unit<BaseUnit<S, 1, OldScale, "", SubSymbol, ...>>],
    then asserts [is_same_v<OldScale, std::ratio<1>>] and builds
    [BaseUnit<S, 1, ratio_multiply<OldScale, Scalar>, NewPrefix, SubSymbol, ...>]. *)
Module scaling.
Import extra.

Definition ApplyScale (u : Unit) (scalar : ratio) (new_prefix : string) : option Unit :=
  match u with
  | [b] =>
      if (exp b =? 1) && String.eqb (prefix b) "" then
        if ratio_eqb (scale b) ratio_one then
          Some [mk_BaseUnit (base_symbol b) 1 (ratio_multiply (scale b) scalar)
                  new_prefix (sub_symbol b) (sub_to_base b) (base_to_sub b)]
        else None
      else None
  | _ => None
  end.

(** [std::kilo = std::ratio<1000, 1>], [std::centi = std::ratio<1, 100>]. *)
Definition kilo (u : Unit) : option Unit := ApplyScale u (mk_ratio 1000 1) "k".
Definition centi (u : Unit) : option Unit := ApplyScale u (mk_ratio 1 100) "c".

(** [kilo<meter>] as the compiler spells it out. *)
Definition kilometer : Unit :=
  [mk_BaseUnit "m" 1 (mk_ratio 1000 1) "k" "m" "return_self" "return_self"].

End scaling.

(** ** Printing: [print_base_unit], [print_unit_impl], [operator<<] *)
Module printing.
Import extra.

(** [std::ostream << int]: decimal digits, with a leading [-] if negative. *)
Fixpoint digits (fuel : nat) (n : nat) (acc : string) : string :=
  match fuel with
  | O => acc
  | S f =>
      let acc' := String (ascii_of_nat (48 + Nat.modulo n 10)) acc in
      if Nat.ltb n 10 then acc' else digits f (Nat.div n 10) acc'
  end.

Definition string_of_nat (n : nat) : string := digits (S n) n "".

Definition string_of_Z (z : Z) : string :=
  if z <? 0 then "-" ++ string_of_nat (Z.to_nat (- z)) else string_of_nat (Z.to_nat z).

(** [print_base_unit<BaseUnit>]: nothing for exponent 0; else prefix, sub
    symbol, and ["^" exp] unless the exponent is 1. *)
Definition print_base_unit (b : BaseUnit) : string :=
  if exp b =? 0 then ""
  else prefix b ++ sub_symbol b ++ (if exp b =? 1 then "" else "^" ++ string_of_Z (exp b)).

(** The comma fold of [print_unit_impl]: after the [n]-th descriptor (counted
    by [++n]) a ["*"] is written when [n < sizeof...(BaseUnits)]. *)
Fixpoint print_unit_loop (n total : nat) (u : Unit) : string :=
  match u with
  | [] => ""
  | b :: t =>
      let n' := S n in
      print_base_unit b ++ (if Nat.ltb n' total then "*" else "") ++ print_unit_loop n' total t
  end.

Definition print_unit_impl (u : Unit) : string := print_unit_loop 0 (length u) u.

Section Print.
Context {V : Type}.
(** [os << q.raw_value]: the value's own stream formatting. *)
Variable show_value : V -> string.

Definition print_quantity (q : Quantity V) : string :=
  show_value (raw_value q)
  ++ (if is_empty_unit (UnitType q) then "" else " " ++ print_unit_impl (UnitType q)).

End Print.

(** The rendering §4.3 describes, written from its words. *)
Definition spec_render (b : BaseUnit) : string :=
  prefix b ++ sub_symbol b ++ (if exp b =? 1 then "" else "^" ++ string_of_Z (exp b)).

End printing.

(** [Q] as a stand-in for [double] on the small exact values of the examples. *)
#[export] Instance Q_FloatOps : FloatOps Q := {
  fadd := Qplus; fsub := Qminus; fmul := Qmult; fdiv := Qdiv; fneg := Qopp;
  fofZ := inject_Z
}.

(** ** The v0.2 engine (same header, [UNIT_HPP_VERSION_MINOR = 2])

    A dimension is [Dim<Name, Exponent>], with no scale or display metadata;
    the algebra merges dimensions by name alone. *)
Module v02.

Record Dim := mk_Dim { name : string; dexp : Z }.

Definition Unit := list Dim.

(** [AddDimToUnit<NewDim, CurrentUnit>]: the merging specialisation binds one
    [FixedString N] for both dimensions. *)
Fixpoint AddDimToUnit (d : Dim) (u : Unit) : Unit :=
  match u with
  | [] => [d]
  | h :: rest =>
      if String.eqb (name d) (name h) then
        let sum := dexp d + dexp h in
        if sum =? 0 then rest else mk_Dim (name h) sum :: rest
      else h :: AddDimToUnit d rest
  end.

Fixpoint MultiplyUnits (ua ub : Unit) : Unit :=
  match ub with
  | [] => ua
  | hb :: tb => MultiplyUnits (AddDimToUnit hb ua) tb
  end.

Definition InvertDim (d : Dim) : Dim := mk_Dim (name d) (- dexp d).

Fixpoint InvertUnit (u : Unit) : Unit :=
  match u with
  | [] => []
  | h :: t => InvertDim h :: InvertUnit t
  end.

Definition DivideUnits (ua ub : Unit) : Unit := MultiplyUnits ua (InvertUnit ub).

(** Sum of the exponents [u] carries on name [s]. *)
Fixpoint exponent_in (u : Unit) (s : string) : Z :=
  match u with
  | [] => 0
  | h :: t => (if String.eqb (name h) s then dexp h else 0) + exponent_in t s
  end.

Definition mentions (u : Unit) (s : string) : bool :=
  existsb (fun h => String.eqb (name h) s) u.

Fixpoint names_distinct (u : Unit) : Prop :=
  match u with
  | [] => True
  | h :: t => mentions t (name h) = false /\ names_distinct t
  end.

Definition dexps_nonzero (u : Unit) : Prop := Forall (fun d => dexp d <> 0) u.

(** [print_single_dim<D>]: the name, then ["^" exp] unless the exponent
    is 1. *)
Definition print_single_dim (d : Dim) : string :=
  name d ++ (if dexp d =? 1 then "" else "^" ++ printing.string_of_Z (dexp d)).

(** The fold of v0.2 [print_unit_impl]: a ["*"] after the [n]-th dimension
    when [++n < sizeof...(Ds)]. *)
Fixpoint print_unit_loop (n total : nat) (u : Unit) : string :=
  match u with
  | [] => ""
  | d :: t =>
      let n' := S n in
      print_single_dim d ++ (if Nat.ltb n' total then "*" else "") ++ print_unit_loop n' total t
  end.

Definition print_unit_impl (u : Unit) : string := print_unit_loop 0 (length u) u.

(** A v0.2 dimension seen as a v0.16 descriptor with default metadata. *)
Definition to_base_unit (d : Dim) : extra.BaseUnit :=
  extra.with_exp (extra.base_default (name d)) (dexp d).

(** [extra::power_of_10(int n)]: multiply by 10 [n] times, or divide by 10
    [-n] times, starting from 1. *)
Section Power.
Context {V : Type} `{FloatOps V}.

Fixpoint times10 (k : nat) (r : V) : V :=
  match k with O => r | S k' => times10 k' (fmul r (fofZ 10)) end.

Fixpoint over10 (k : nat) (r : V) : V :=
  match k with O => r | S k' => over10 k' (fdiv r (fofZ 10)) end.

Definition power_of_10 (n : Z) : V :=
  if 0 <=? n then times10 (Z.to_nat n) (fofZ 1) else over10 (Z.to_nat (- n)) (fofZ 1).
End Power.

End v02.

(** ** [Matrix<Rows, Cols, T>], [Vector<N, T>] and [Vector3<T>]

    [Matrix] and [Vector] store a [std::array]: here a list, row-major for a
    matrix, so [m(r, c)] is [elements[r * Cols + c]].  A default-constructed
    array is value-initialised ([T{}], i.e. [T{0}]), and each [result[i] = ...]
    of a loop overwrites one slot. *)
Module linalg.

Section Storage.
Context {V : Type} `{FloatOps V}.

(** [arr[i] = v] (every index the loops below write is in range). *)
Fixpoint set_nth (l : list V) (i : nat) (v : V) : list V :=
  match l, i with
  | [], _ => []
  | _ :: t, O => v :: t
  | h :: t, S i' => h :: set_nth t i' v
  end.

(** [arr[i]] (read in range only). *)
Definition at_ (l : list V) (i : nat) : V := nth i l (fofZ 0).

(** [std::array<T, n>{}]. *)
Definition zeros (n : nat) : list V := repeat (fofZ 0) n.

(** [for (size_t i = 0; i < n; ++i) body;], threading the mutated state. *)
Definition for_loop {A : Type} (n : nat) (body : nat -> A -> A) (s : A) : A :=
  fold_left (fun acc i => body i acc) (seq 0 n) s.

(** [Matrix::operator()(r, c)], read and write. *)
Definition get (Cols : nat) (m : list V) (r c : nat) : V := at_ m (r * Cols + c).

Definition set (Cols : nat) (m : list V) (r c : nat) (v : V) : list V :=
  set_nth m (r * Cols + c) v.

(** [Matrix::Identity()] (square matrices only). *)
Definition Identity (N : nat) : list V :=
  for_loop N (fun i m => set N m i i (fofZ 1)) (zeros (N * N)).

(** [Matrix::transposed()]: a [Matrix<Cols, Rows>] whose entry [(c, r)] is
    entry [(r, c)] of the source. *)
Definition transposed (Rows Cols : nat) (m : list V) : list V :=
  for_loop Rows (fun r res =>
    for_loop Cols (fun c res => set Rows res c r (get Cols m r c)) res)
  (zeros (Cols * Rows)).

(** [Matrix<Rows, Cols>::operator*(const Matrix<Cols, OtherCols>&)]. *)
Definition mul (Rows Cols OtherCols : nat) (m o : list V) : list V :=
  for_loop Rows (fun r res =>
    for_loop OtherCols (fun c res =>
      let sum := for_loop Cols (fun k sum =>
                   fadd sum (fmul (get Cols m r k) (get OtherCols o k c))) (fofZ 0) in
      set OtherCols res r c sum) res)
  (zeros (Rows * OtherCols)).

(** [Matrix<Rows, Cols>::operator*(const Vector<Cols, T>&)]: a
    [Vector<Rows, T>]. *)
Definition mul_vec (Rows Cols : nat) (m vec : list V) : list V :=
  for_loop Rows (fun r res =>
    let sum := for_loop Cols (fun k sum => fadd sum (fmul (get Cols m r k) (at_ vec k))) (fofZ 0) in
    set_nth res r sum)
  (zeros Rows).

(** [Matrix::determinant()] for [Rows == Cols == 2] and [3]. *)
Definition determinant2 (m : list V) : V :=
  fsub (fmul (get 2 m 0 0) (get 2 m 1 1)) (fmul (get 2 m 0 1) (get 2 m 1 0)).

Definition determinant3 (m : list V) : V :=
  fadd
    (fsub
       (fmul (get 3 m 0 0) (fsub (fmul (get 3 m 1 1) (get 3 m 2 2))
                                 (fmul (get 3 m 1 2) (get 3 m 2 1))))
       (fmul (get 3 m 0 1) (fsub (fmul (get 3 m 1 0) (get 3 m 2 2))
                                 (fmul (get 3 m 1 2) (get 3 m 2 0)))))
    (fmul (get 3 m 0 2) (fsub (fmul (get 3 m 1 0) (get 3 m 2 1))
                              (fmul (get 3 m 1 1) (get 3 m 2 0)))).

(** [Vector<N, T>]: [operator-], [operator*(scalar)] (also reached through
    the friend [operator*(scalar, vec)], which returns [vec * scalar]),
    [dot] and [lengthSquared]. *)
Definition vsub (N : nat) (a b : list V) : list V :=
  for_loop N (fun i res => set_nth res i (fsub (at_ a i) (at_ b i))) (zeros N).

Definition vscale (N : nat) (a : list V) (scalar : V) : list V :=
  for_loop N (fun i res => set_nth res i (fmul (at_ a i) scalar)) (zeros N).

Definition dot (N : nat) (a b : list V) : V :=
  for_loop N (fun i sum => fadd sum (fmul (at_ a i) (at_ b i))) (fofZ 0).

Definition lengthSquared (N : nat) (a : list V) : V := dot N a a.

End Storage.

(** [axis_len_sq == 0]: the comparison [Vector::projectedOnto] makes. *)
Class FloatEq (V : Type) := feqb : V -> V -> bool.

Section Projection.
Context {V : Type} `{FloatOps V} `{FloatEq V}.

(** [Vector::projectedOnto(axis)]. *)
Definition projectedOnto (N : nat) (v axis : list V) : list V :=
  let axis_len_sq := lengthSquared N axis in
  if feqb axis_len_sq (fofZ 0) then zeros N
  else vscale N axis (fdiv (dot N v axis) axis_len_sq).

End Projection.

Section Vec3.
Context {V : Type} `{FloatOps V}.

Record Vector3 := mk_Vector3 { x : V; y : V; z : V }.

Definition v3add (a b : Vector3) : Vector3 :=
  mk_Vector3 (fadd (x a) (x b)) (fadd (y a) (y b)) (fadd (z a) (z b)).

Definition v3sub (a b : Vector3) : Vector3 :=
  mk_Vector3 (fsub (x a) (x b)) (fsub (y a) (y b)) (fsub (z a) (z b)).

(** [operator*(auto scalar)], and the friend [operator*(scalar, vec)]. *)
Definition v3scale (a : Vector3) (scalar : V) : Vector3 :=
  mk_Vector3 (fmul (x a) scalar) (fmul (y a) scalar) (fmul (z a) scalar).

Definition v3dot (a b : Vector3) : V :=
  fadd (fadd (fmul (x a) (x b)) (fmul (y a) (y b))) (fmul (z a) (z b)).

Definition cross (a b : Vector3) : Vector3 :=
  mk_Vector3 (fsub (fmul (y a) (z b)) (fmul (z a) (y b)))
             (fsub (fmul (z a) (x b)) (fmul (x a) (z b)))
             (fsub (fmul (x a) (y b)) (fmul (y a) (x b))).

Definition v3lengthSquared (a : Vector3) : V :=
  fadd (fadd (fmul (x a) (x a)) (fmul (y a) (y a))) (fmul (z a) (z a)).

(** [Vector3::projectedOnto(axis)]: no guard on a zero axis. *)
Definition v3projectedOnto (v axis : Vector3) : Vector3 :=
  let axis_length_squared := v3lengthSquared axis in
  v3scale axis (fdiv (v3dot v axis) axis_length_squared).

(** [Vector3::rotatedBy(angle, axis)]: [Unit::defaults::cos] and [sin] are
    the [__unithpp_bring_rad_func] wrappers around [std::cos] and [std::sin]
    ([cosf], [sinf]); the result is
    [v * cos_phi + k.cross(v) * sin_phi + k * (k.dot(v)) * (1.0 - cos_phi)]. *)
Definition rotatedBy (cosf sinf : V -> V) (angle : Quantity V) (axis v : Vector3)
  : option Vector3 :=
  match rad_func cosf angle, rad_func sinf angle with
  | Some cos_phi, Some sin_phi =>
      let k := axis in
      Some (v3add (v3add (v3scale v cos_phi) (v3scale (cross k v) sin_phi))
                  (v3scale (v3scale k (v3dot k v)) (fsub (fofZ 1) cos_phi)))
  | _, _ => None
  end.

End Vec3.

Arguments Vector3 V : clear implicits.

End linalg.

#[export] Instance Q_FloatEq : linalg.FloatEq Q := Qeq_bool.

(** * Properties of the unit algebra *)
Module UnitFacts.
Import extra.

Lemma ratio_eqb_eq (a b : ratio) : ratio_eqb a b = true <-> a = b.
Proof.
  destruct a as [an ad], b as [bn bd]; unfold ratio_eqb; simpl.
  rewrite andb_true_iff, !Z.eqb_eq; split.
  - intros [-> ->]; reflexivity.
  - intros H; injection H; auto.
Qed.

Lemma same_but_exp_spec (a b : BaseUnit) :
  same_but_exp a b = true <->
  base_symbol a = base_symbol b /\ scale a = scale b /\ prefix a = prefix b /\
  sub_symbol a = sub_symbol b /\ sub_to_base a = sub_to_base b /\
  base_to_sub a = base_to_sub b.
Proof.
  unfold same_but_exp; rewrite !andb_true_iff, !String.eqb_eq, ratio_eqb_eq.
  tauto.
Qed.

Lemma same_but_exp_refl (a : BaseUnit) : same_but_exp a a = true.
Proof. apply same_but_exp_spec; tauto. Qed.

Lemma same_but_exp_sym (a b : BaseUnit) : same_but_exp a b = same_but_exp b a.
Proof.
  destruct (same_but_exp a b) eqn:E1, (same_but_exp b a) eqn:E2; auto.
  - apply same_but_exp_spec in E1.
    assert (same_but_exp b a = true) by (apply same_but_exp_spec; intuition congruence).
    congruence.
  - apply same_but_exp_spec in E2.
    assert (same_but_exp a b = true) by (apply same_but_exp_spec; intuition congruence).
    congruence.
Qed.

Lemma same_but_exp_trans (a b c : BaseUnit) :
  same_but_exp a b = true -> same_but_exp b c = true -> same_but_exp a c = true.
Proof.
  intros H1 H2; apply same_but_exp_spec in H1, H2; apply same_but_exp_spec.
  intuition congruence.
Qed.

Lemma same_but_exp_with_exp_r (a b : BaseUnit) (e : Z) :
  same_but_exp a (with_exp b e) = same_but_exp a b.
Proof. destruct b; reflexivity. Qed.

Lemma same_but_exp_base_symbol (a b : BaseUnit) :
  same_but_exp a b = true -> base_symbol a = base_symbol b.
Proof. rewrite same_but_exp_spec; tauto. Qed.

Lemma same_but_exp_with_exp_l (a b : BaseUnit) (e : Z) :
  same_but_exp (with_exp a e) b = same_but_exp a b.
Proof. destruct a; reflexivity. Qed.

(** One step of the fold adds [a]'s exponent to [a]'s base symbol. *)
Lemma exponent_in_step (a : BaseUnit) (u : Unit) (s : string) :
  exponent_in (MultiplyBaseUnitByUnit a u) s =
  (if String.eqb (base_symbol a) s then exp a else 0) + exponent_in u s.
Proof.
  induction u as [|h t IH]; simpl.
  - lia.
  - destruct (same_but_exp a h) eqn:E.
    + pose proof (same_but_exp_base_symbol _ _ E) as Hb.
      rewrite <- Hb.
      destruct (exp a + exp h =? 0) eqn:Z0; simpl.
      * apply Z.eqb_eq in Z0. destruct (String.eqb (base_symbol a) s); lia.
      * rewrite <- Hb. destruct (String.eqb (base_symbol a) s); lia.
    + simpl. rewrite IH. lia.
Qed.

Lemma exponent_in_MultiplyUnits (ua ub : Unit) (s : string) :
  exponent_in (MultiplyUnits ua ub) s = exponent_in ua s + exponent_in ub s.
Proof.
  revert ua; induction ub as [|hb tb IH]; intros ua; simpl.
  - lia.
  - rewrite IH, exponent_in_step. lia.
Qed.

(** The same bookkeeping per metadata key. *)
Lemma exponent_of_key_step (a : BaseUnit) (u : Unit) (k : BaseUnit) :
  exponent_of_key (MultiplyBaseUnitByUnit a u) k =
  (if same_but_exp k a then exp a else 0) + exponent_of_key u k.
Proof.
  induction u as [|h t IH]; simpl.
  - lia.
  - destruct (same_but_exp a h) eqn:E.
    + assert (Hk : same_but_exp k a = same_but_exp k h).
      { destruct (same_but_exp k a) eqn:K1, (same_but_exp k h) eqn:K2; auto.
        - rewrite (same_but_exp_trans _ _ _ K1 E) in K2; discriminate.
        - rewrite same_but_exp_sym in E.
          rewrite (same_but_exp_trans _ _ _ K2 E) in K1; discriminate. }
      destruct (exp a + exp h =? 0) eqn:Z0; simpl.
      * apply Z.eqb_eq in Z0. rewrite Hk. destruct (same_but_exp k h); lia.
      * rewrite same_but_exp_with_exp_r, Hk. simpl.
        destruct (same_but_exp k h); lia.
    + simpl. rewrite IH. lia.
Qed.

Lemma exponent_of_key_MultiplyUnits (ua ub : Unit) (k : BaseUnit) :
  exponent_of_key (MultiplyUnits ua ub) k = exponent_of_key ua k + exponent_of_key ub k.
Proof.
  revert ua; induction ub as [|hb tb IH]; intros ua; simpl.
  - lia.
  - rewrite IH, exponent_of_key_step. lia.
Qed.

(** Well-formedness is preserved: distinct keys, no zero exponent. *)
Lemma mentions_key_with_exp (u : Unit) (k : BaseUnit) (e : Z) :
  mentions_key u (with_exp k e) = mentions_key u k.
Proof. destruct k; reflexivity. Qed.

Lemma mentions_key_congr (u : Unit) (k k' : BaseUnit) :
  same_but_exp k k' = true -> mentions_key u k = mentions_key u k'.
Proof.
  intros Hk; unfold mentions_key; induction u as [|h t IH]; simpl; auto.
  rewrite IH; f_equal.
  destruct (same_but_exp k h) eqn:E1, (same_but_exp k' h) eqn:E2; auto.
  - rewrite same_but_exp_sym in Hk.
    rewrite (same_but_exp_trans _ _ _ Hk E1) in E2; discriminate.
  - rewrite (same_but_exp_trans _ _ _ Hk E2) in E1; discriminate.
Qed.

Lemma mentions_key_step (a : BaseUnit) (u : Unit) (k : BaseUnit) :
  mentions_key (MultiplyBaseUnitByUnit a u) k = true ->
  mentions_key u k = true \/ same_but_exp k a = true.
Proof.
  unfold mentions_key; induction u as [|h t IH]; simpl.
  - rewrite orb_false_r; auto.
  - destruct (same_but_exp a h) eqn:E.
    + destruct (exp a + exp h =? 0); simpl.
      * intros ->; rewrite orb_true_r; auto.
      * rewrite same_but_exp_with_exp_r; auto.
    + simpl; rewrite orb_true_iff; intros [H1 | H1].
      * rewrite H1; auto.
      * destruct (IH H1) as [H2 | H2]; [rewrite H2, orb_true_r|]; auto.
Qed.

Lemma wf_step (a : BaseUnit) (u : Unit) :
  keys_distinct u -> exps_nonzero u -> exp a <> 0 ->
  keys_distinct (MultiplyBaseUnitByUnit a u) /\ exps_nonzero (MultiplyBaseUnitByUnit a u).
Proof.
  intros Hk Hn Ha; induction u as [|h t IH]; simpl.
  - split; [split; auto | constructor; auto].
  - destruct Hk as [Hh Ht]; inversion Hn as [|? ? Hnh Hnt]; subst.
    destruct (same_but_exp a h) eqn:E.
    + destruct (exp a + exp h =? 0) eqn:Z0.
      * split; auto.
      * apply Z.eqb_neq in Z0; simpl.
        rewrite mentions_key_with_exp.
        split; [split; auto | constructor; auto].
    + destruct (IH Ht Hnt) as [IHk IHn].
      split; [split; auto | constructor; auto].
      destruct (mentions_key (MultiplyBaseUnitByUnit a t) h) eqn:M; auto.
      destruct (mentions_key_step _ _ _ M) as [M' | M'].
      * congruence.
      * rewrite same_but_exp_sym in M'; congruence.
Qed.

Lemma wf_MultiplyUnits (ua ub : Unit) :
  keys_distinct ua -> exps_nonzero ua -> exps_nonzero ub ->
  keys_distinct (MultiplyUnits ua ub) /\ exps_nonzero (MultiplyUnits ua ub).
Proof.
  revert ua; induction ub as [|hb tb IH]; intros ua Hk Hn Hb; simpl; auto.
  inversion Hb; subst.
  destruct (wf_step hb ua Hk Hn) as [Hk' Hn']; auto.
Qed.

Lemma exponent_of_key_absent (u : Unit) (k : BaseUnit) :
  mentions_key u k = false -> exponent_of_key u k = 0.
Proof.
  unfold mentions_key; induction u as [|h t IH]; simpl; auto.
  rewrite orb_false_iff; intros [-> H]; rewrite IH; auto.
Qed.

Lemma exponent_of_key_present (u : Unit) (k : BaseUnit) :
  keys_distinct u -> exps_nonzero u ->
  mentions_key u k = true -> exponent_of_key u k <> 0.
Proof.
  induction u as [|h t IH]; simpl; [discriminate|].
  intros [Hh Ht] Hn; inversion Hn as [|? ? Hnh Hnt]; subst.
  unfold mentions_key; simpl; destruct (same_but_exp k h) eqn:E.
  - intros _. rewrite exponent_of_key_absent; [lia|].
    rewrite (mentions_key_congr _ _ _ E); auto.
  - simpl; intros M; specialize (IH Ht Hnt M); lia.
Qed.

Lemma absent_iff_zero (u : Unit) (k : BaseUnit) :
  keys_distinct u -> exps_nonzero u ->
  (mentions_key u k = false <-> exponent_of_key u k = 0).
Proof.
  intros Hk Hn; split; [apply exponent_of_key_absent|].
  destruct (mentions_key u k) eqn:M; auto.
  intros Z0; exfalso; exact (exponent_of_key_present u k Hk Hn M Z0).
Qed.

(** Folding [InvertUnit A] into [A] cancels descriptor by descriptor. *)
Lemma MultiplyUnits_InvertUnit (ua : Unit) : MultiplyUnits ua (InvertUnit ua) = [].
Proof.
  induction ua as [|h t IH]; simpl; auto.
  unfold InvertBaseUnit at 1.
  rewrite same_but_exp_with_exp_l, same_but_exp_refl; simpl.
  replace (- exp h + exp h =? 0) with true by (symmetry; apply Z.eqb_eq; lia).
  exact IH.
Qed.

Lemma InvertUnit_map (ua : Unit) : InvertUnit ua = map (fun b => with_exp b (- exp b)) ua.
Proof. induction ua as [|h t IH]; simpl; f_equal; auto. Qed.

Lemma Unit_eqb_eq (u v : Unit) : Unit_eqb u v = true <-> u = v.
Proof.
  revert v; induction u as [|a u IH]; intros [|b v]; simpl; split; intros H;
    try discriminate; auto.
  - apply andb_true_iff in H as [Hab Huv].
    apply IH in Huv; subst v.
    unfold BaseUnit_eqb in Hab; rewrite !andb_true_iff, !String.eqb_eq,
      Z.eqb_eq, ratio_eqb_eq in Hab.
    destruct a, b; simpl in *; intuition congruence.
  - injection H as -> ->.
    apply andb_true_iff; split; [|apply IH; auto].
    unfold BaseUnit_eqb; rewrite !andb_true_iff, !String.eqb_eq, Z.eqb_eq, ratio_eqb_eq.
    intuition.
Qed.

End UnitFacts.

(** * The claims *)
Import extra defaults UnitFacts.

(** C1 (counterexample): a mile times an inverse meter keeps both "m"
    descriptors, whose exponents sum to 0, so the symbol "m" is not absent
    from the product although its summed exponent is 0. *)
Lemma multiply_symbol_absence_counterexample :
  ~ (mentions (MultiplyUnits mile (InvertUnit meter)) "m" = false <->
     exponent_in mile "m" + exponent_in (InvertUnit meter) "m" = 0).
Proof.
  intros [_ H]; specialize (H eq_refl); discriminate H.
Qed.

(** C1 (amended): exponents add per base symbol for all compound units;
    presence follows the metadata key.  For A with distinct keys and no zero
    exponent and B with no zero exponent, every descriptor key k (base symbol
    with scale, prefix, display symbol, conversion functions) has exponent
    exp_A(k) + exp_B(k) in [multiply(A, B)] and is absent exactly when that
    sum is 0. *)
Theorem multiply_exponents_per_key (ua ub : Unit) :
  keys_distinct ua -> exps_nonzero ua -> exps_nonzero ub ->
  (forall s, exponent_in (MultiplyUnits ua ub) s = exponent_in ua s + exponent_in ub s) /\
  (forall k, exponent_of_key (MultiplyUnits ua ub) k
               = exponent_of_key ua k + exponent_of_key ub k /\
             (mentions_key (MultiplyUnits ua ub) k = false
              <-> exponent_of_key ua k + exponent_of_key ub k = 0)).
Proof.
  intros Hk Hn Hb; split; [apply exponent_in_MultiplyUnits|].
  intros k; rewrite <- exponent_of_key_MultiplyUnits; split; auto.
  destruct (wf_MultiplyUnits ua ub Hk Hn Hb) as [Hk' Hn'].
  apply absent_iff_zero; auto.
Qed.

Lemma multiply_exponents_per_key_witness :
  (keys_distinct mile /\ exps_nonzero mile /\ exps_nonzero (InvertUnit meter)) /\
  exponent_in (MultiplyUnits mile (InvertUnit meter)) "m" = 0.
Proof.
  assert (H : keys_distinct mile /\ exps_nonzero mile /\ exps_nonzero (InvertUnit meter)).
  { split; [simpl; auto|]; split; repeat constructor; simpl; discriminate. }
  split; [exact H|].
  destruct H as (Hk & Hn & Hb).
  destruct (multiply_exponents_per_key mile (InvertUnit meter) Hk Hn Hb) as [Hs _].
  rewrite Hs; reflexivity.
Defined.

(** C2 (counterexample): miles times meters does not merge: the product is
    the list [mi; m], with two descriptors on the base symbol "m". *)
Lemma mile_times_meter_not_merged :
  MultiplyUnits mile meter = (mile ++ meter)%list /\
  length (filter (fun b => String.eqb (base_symbol b) "m") (MultiplyUnits mile meter)) = 2%nat.
Proof. split; reflexivity. Qed.

(** C2 (amended): a descriptor merges only with one that has the same base
    symbol and the same metadata; a descriptor whose metadata matches none
    of the accumulator's is appended unchanged at the end, so the product
    of miles and meters is [mi; m]. *)
Theorem multiply_merges_only_same_metadata :
  (forall a u, mentions_key u a = false -> MultiplyBaseUnitByUnit a u = (u ++ [a])%list) /\
  (forall a h rest, same_but_exp a h = true ->
     MultiplyBaseUnitByUnit a (h :: rest)
     = if exp a + exp h =? 0 then rest else with_exp h (exp a + exp h) :: rest) /\
  MultiplyUnits mile meter = (mile ++ meter)%list.
Proof.
  split; [|split].
  - intros a u; unfold mentions_key; induction u as [|h t IH]; simpl; auto.
    rewrite orb_false_iff; intros [Hh Ht]; rewrite Hh, IH; auto.
  - intros a h rest E; simpl; rewrite E; reflexivity.
  - reflexivity.
Qed.

Lemma multiply_merges_only_same_metadata_witness :
  mentions_key meter (hd (base_default "m") mile) = false /\
  MultiplyBaseUnitByUnit (hd (base_default "m") mile) meter = (meter ++ [hd (base_default "m") mile])%list.
Proof.
  split; [reflexivity|].
  apply (proj1 multiply_merges_only_same_metadata); reflexivity.
Defined.

(** C4: for every compound unit A, [multiply(A, invert(A))] is the empty
    unit, where [invert] negates every exponent and keeps the metadata. *)
Theorem multiply_invert_is_empty (ua : Unit) :
  MultiplyUnits ua (InvertUnit ua) = [] /\
  InvertUnit ua = map (fun b => with_exp b (- exp b)) ua.
Proof. split; [apply MultiplyUnits_InvertUnit | apply InvertUnit_map]. Qed.

(** Rendering of a list of descriptors with no zero exponent. *)
Module PrintFacts.
Import printing.

Lemma append_empty_r (s : string) : (s ++ "")%string = s.
Proof. induction s as [|c s IH]; simpl; [|rewrite IH]; reflexivity. Qed.

Lemma print_unit_loop_render (u : Unit) (n : nat) :
  exps_nonzero u ->
  print_unit_loop n (n + length u) u = String.concat "*" (map spec_render u).
Proof.
  revert n; induction u as [|b t IH]; intros n Hn; simpl; auto.
  inversion Hn as [|? ? Hb Ht]; subst.
  assert (Hpb : print_base_unit b = spec_render b).
  { unfold print_base_unit, spec_render; apply Z.eqb_neq in Hb; rewrite Hb; reflexivity. }
  rewrite Hpb, Nat.add_succ_r, <- Nat.add_succ_l, IH by auto.
  destruct t as [|c t'].
  - simpl; rewrite Nat.add_0_r, Nat.ltb_irrefl; simpl; rewrite append_empty_r; reflexivity.
  - replace (Nat.ltb (S n) (S n + length (c :: t'))) with true
      by (symmetry; apply Nat.ltb_lt; simpl; lia).
    reflexivity.
Qed.

End PrintFacts.

Section QuantityClaims.
Context {V : Type} `{FloatOps V}.
Import scaling printing.

(** C3: [add] and [sub] are well-formed only between quantities of one and
    the same unit type (same descriptors, same metadata, same order; no
    implicit conversion); the result keeps that unit and carries the sum,
    respectively difference.  3 m + 3 s and 3 m + 3 mi are rejected. *)
Theorem add_sub_require_identical_units (q1 q2 : Quantity V) :
  (UnitType q1 = UnitType q2 ->
     add q1 q2 = Some (mk_Quantity (UnitType q1) (fadd (raw_value q1) (raw_value q2))) /\
     sub q1 q2 = Some (mk_Quantity (UnitType q1) (fsub (raw_value q1) (raw_value q2)))) /\
  (UnitType q1 <> UnitType q2 -> add q1 q2 = None /\ sub q1 q2 = None) /\
  add (mk_Quantity meter (fofZ 3)) (mk_Quantity second (fofZ 3)) = None /\
  add (mk_Quantity meter (fofZ 3)) (mk_Quantity mile (fofZ 3)) = None.
Proof.
  unfold add, sub; split; [|split; [|split]]; try reflexivity.
  - intros E; rewrite E, (proj2 (Unit_eqb_eq _ _) eq_refl); auto.
  - intros E; destruct (Unit_eqb (UnitType q1) (UnitType q2)) eqn:U; auto.
    apply Unit_eqb_eq in U; contradiction.
Qed.

(** C5: a product or quotient whose unit is [Unit<>] is a bare number (the
    product or quotient of the raw values); any other result is a quantity
    of the computed unit.  (10 m/s) / (2 m/s) is the bare number 10 / 2. *)
Theorem mul_div_bare_when_dimensionless (q1 q2 : Quantity V) :
  (MultiplyUnits (UnitType q1) (UnitType q2) = [] ->
     mul q1 q2 = Bare (fmul (raw_value q1) (raw_value q2))) /\
  (MultiplyUnits (UnitType q1) (UnitType q2) <> [] ->
     mul q1 q2 = Wrapped (mk_Quantity (MultiplyUnits (UnitType q1) (UnitType q2))
                                      (fmul (raw_value q1) (raw_value q2)))) /\
  (DivideUnits (UnitType q1) (UnitType q2) = [] ->
     div q1 q2 = Bare (fdiv (raw_value q1) (raw_value q2))) /\
  (DivideUnits (UnitType q1) (UnitType q2) <> [] ->
     div q1 q2 = Wrapped (mk_Quantity (DivideUnits (UnitType q1) (UnitType q2))
                                      (fdiv (raw_value q1) (raw_value q2)))) /\
  div (mk_Quantity meter_per_second (fofZ 10)) (mk_Quantity meter_per_second (fofZ 2))
  = Bare (fdiv (fofZ 10) (fofZ 2)).
Proof.
  unfold mul, div; repeat split.
  - intros E; rewrite E; reflexivity.
  - intros E; destruct (MultiplyUnits (UnitType q1) (UnitType q2)); [contradiction|reflexivity].
  - intros E; rewrite E; reflexivity.
  - intros E; destruct (DivideUnits (UnitType q1) (UnitType q2)); [contradiction|reflexivity].
Qed.

(** C10: [k / q] for a bare scalar [k] is a quantity of unit [invert(U)]
    (exponents negated, metadata kept) with raw value [k / q.raw_value];
    [1 / second] is the quantity of unit s^-1. *)
Theorem scalar_div_inverts_unit (k : V) (q : Quantity V) :
  UnitType (scalar_div k q) = map (fun b => with_exp b (- exp b)) (UnitType q) /\
  raw_value (scalar_div k q) = fdiv k (raw_value q) /\
  UnitType (scalar_div (fofZ 1) (mk_Quantity second k)) = [with_exp (base_default "s") (-1)].
Proof.
  split; [apply InvertUnit_map | split; reflexivity].
Qed.

(** C6: the [requires]-clause admits kilometer -> meter and mile -> meter,
    yet the constructor body names [SourceBase::sub_ratio], a member no
    [BaseUnit] declares, so every conversion between two different unit
    types is a build error. *)
Theorem convert_distinct_types_rejected :
  (forall (target : Unit) (q : Quantity V),
     Unit_eqb target (UnitType q) = false -> convert target q = None) /\
  kilo meter = Some kilometer /\
  convert_requires meter kilometer = true /\
  convert meter (mk_Quantity kilometer (fofZ 1)) = None /\
  convert_requires meter mile = true /\
  convert meter (mk_Quantity mile (fofZ 1)) = None.
Proof.
  repeat split.
  intros target q E; unfold convert; rewrite E.
  destruct (convert_requires target (UnitType q)); auto.
  destruct (single_base target), (single_base (UnitType q)); auto.
Qed.

(** C8: [sin], [cos], ... accept the degree type by their signature, but
    [radians(q)] goes through the converting constructor and is rejected;
    only a [radians] argument goes through, by the copy constructor. *)
Theorem rad_func_degrees_rejected (f : V -> V) :
  rad_param degrees = true /\
  rad_func f (mk_Quantity degrees (fofZ 90)) = None /\
  (forall x, rad_func f (mk_Quantity radians x) = Some (f x)).
Proof. repeat split. Qed.

(** C9: for a unit with no zero exponent, printing writes the raw value,
    then (unless the unit is empty) a space and the descriptors in stored
    order, each as prefix ++ display symbol ++ ["^" exp] when exp <> 1,
    joined by ["*"]. *)
Theorem print_quantity_render (show_value : V -> string) (q : Quantity V) :
  exps_nonzero (UnitType q) ->
  print_quantity show_value q
  = (show_value (raw_value q)
     ++ match UnitType q with
        | [] => ""
        | u => " " ++ String.concat "*" (map spec_render u)
        end)%string.
Proof.
  intros Hn; unfold print_quantity, print_unit_impl.
  destruct (UnitType q) as [|b t] eqn:E; [reflexivity|].
  change (length (b :: t)) with (0 + length (b :: t))%nat.
  rewrite (PrintFacts.print_unit_loop_render (b :: t) 0 Hn); reflexivity.
Qed.

End QuantityClaims.

Import scaling printing.

(** C7: [ApplyScale] is defined only on a single descriptor with exponent 1,
    scale [ratio<1>] (and no prefix yet); there it multiplies the scale by the
    given ratio and sets the new prefix.  Compound units, other exponents and
    already-scaled units are rejected. *)
Theorem ApplyScale_only_plain_single :
  (forall u r p u', ApplyScale u r p = Some u' ->
     exists b, u = [b] /\ exp b = 1 /\ scale b = ratio_one /\ prefix b = "" /\
       u' = [mk_BaseUnit (base_symbol b) 1 (ratio_multiply (scale b) r) p
               (sub_symbol b) (sub_to_base b) (base_to_sub b)]) /\
  (forall u r p, length u <> 1%nat -> ApplyScale u r p = None) /\
  (forall b r p, exp b <> 1 -> ApplyScale [b] r p = None) /\
  (forall b r p, scale b <> ratio_one -> ApplyScale [b] r p = None) /\
  kilo square_meter = None /\ kilo meter_per_second = None /\
  centi kilometer = None /\ kilo meter = Some kilometer.
Proof.
  split; [|split; [|split; [|split]]]; try (repeat split; reflexivity).
  - intros [|b [|c t]] r p u'; simpl; try discriminate.
    destruct (exp b =? 1) eqn:E1, (prefix b =? "")%string eqn:E2,
      (ratio_eqb (scale b) ratio_one) eqn:E3; simpl; try discriminate.
    intros Hs; injection Hs as <-.
    apply Z.eqb_eq in E1; apply String.eqb_eq in E2; apply ratio_eqb_eq in E3.
    exists b; rewrite E1; auto.
  - intros [|b [|c t]] r p Hl; simpl in *; auto; lia.
  - intros b r p Hb; simpl; apply Z.eqb_neq in Hb; rewrite Hb; reflexivity.
  - intros b r p Hb; simpl.
    destruct (exp b =? 1), (prefix b =? "")%string; simpl; auto.
    destruct (ratio_eqb (scale b) ratio_one) eqn:E; auto.
    apply ratio_eqb_eq in E; contradiction.
Qed.

Lemma ApplyScale_only_plain_single_witness :
  ApplyScale meter (mk_ratio 1000 1) "k" = Some kilometer /\
  (exists b, meter = [b] /\ exp b = 1 /\ scale b = ratio_one).
Proof.
  split; [reflexivity|].
  destruct (proj1 ApplyScale_only_plain_single meter (mk_ratio 1000 1) "k" kilometer eq_refl)
    as (b & Hb & He & Hs & _).
  exists b; auto.
Defined.

Lemma add_sub_require_identical_units_witness :
  UnitType (mk_Quantity meter (1 : Q)) = UnitType (mk_Quantity meter (2 : Q)) /\
  add (mk_Quantity meter (1 : Q)) (mk_Quantity meter (2 : Q)) = Some (mk_Quantity meter (1 + 2 : Q)).
Proof.
  split; [reflexivity|].
  exact (proj1 (proj1 (add_sub_require_identical_units
                         (mk_Quantity meter (1 : Q)) (mk_Quantity meter (2 : Q))) eq_refl)).
Defined.

Lemma mul_div_bare_when_dimensionless_witness :
  DivideUnits meter_per_second meter_per_second = [] /\
  div (mk_Quantity meter_per_second (10 : Q)) (mk_Quantity meter_per_second (2 : Q))
  = Bare (10 / 2 : Q) /\
  (10 / 2 == 5)%Q.
Proof.
  split; [reflexivity|]; split; [|reflexivity].
  exact (proj1 (proj2 (proj2 (mul_div_bare_when_dimensionless
                                (mk_Quantity meter_per_second (10 : Q))
                                (mk_Quantity meter_per_second (2 : Q))))) eq_refl).
Defined.

Lemma convert_distinct_types_rejected_witness :
  Unit_eqb meter mile = false /\ convert meter (mk_Quantity mile (1 : Q)) = None.
Proof.
  split; [reflexivity|].
  exact (proj1 (@convert_distinct_types_rejected Q _) meter (mk_Quantity mile (1 : Q)) eq_refl).
Defined.

Lemma print_quantity_render_witness :
  exps_nonzero meter_per_second /\
  print_quantity (fun _ : Q => "5") (mk_Quantity meter_per_second (5 : Q)) = "5 m*s^-1".
Proof.
  assert (Hn : exps_nonzero meter_per_second) by (repeat constructor; discriminate).
  split; [exact Hn|].
  rewrite (print_quantity_render (fun _ : Q => "5") (mk_Quantity meter_per_second (5 : Q)) Hn).
  reflexivity.
Defined.

(** * Further properties of the code *)

Module MoreUnitFacts.
Import extra.

Lemma MultiplyBaseUnitByUnit_fresh (a : BaseUnit) (u : Unit) :
  mentions_key u a = false -> MultiplyBaseUnitByUnit a u = (u ++ [a])%list.
Proof.
  unfold mentions_key; induction u as [|h t IH]; simpl; auto.
  rewrite orb_false_iff; intros [Hh Ht]; rewrite Hh, IH; auto.
Qed.

Lemma mentions_key_app (u v : Unit) (k : BaseUnit) :
  mentions_key (u ++ v)%list k = mentions_key u k || mentions_key v k.
Proof. unfold mentions_key; apply existsb_app. Qed.

Lemma keys_distinct_not_in (b : BaseUnit) (t : Unit) (x : BaseUnit) :
  mentions_key t b = false -> In x t -> same_but_exp x b = false.
Proof.
  unfold mentions_key; intros H Hx.
  rewrite same_but_exp_sym.
  destruct (same_but_exp b x) eqn:E; auto.
  assert (existsb (same_but_exp b) t = true) by (apply existsb_exists; eauto).
  congruence.
Qed.

Lemma InvertBaseUnit_involutive (b : BaseUnit) : InvertBaseUnit (InvertBaseUnit b) = b.
Proof. destruct b; unfold InvertBaseUnit, with_exp; simpl; rewrite Z.opp_involutive; auto. Qed.

Lemma same_but_exp_invert (a b : BaseUnit) :
  same_but_exp (InvertBaseUnit a) (InvertBaseUnit b) = same_but_exp a b.
Proof. destruct a, b; reflexivity. Qed.

Lemma InvertUnit_step (a : BaseUnit) (u : Unit) :
  InvertUnit (MultiplyBaseUnitByUnit a u)
  = MultiplyBaseUnitByUnit (InvertBaseUnit a) (InvertUnit u).
Proof.
  induction u as [|h t IH]; [reflexivity|].
  cbn [InvertUnit MultiplyBaseUnitByUnit].
  rewrite same_but_exp_invert.
  destruct (same_but_exp a h); [|cbn [InvertUnit]; rewrite IH; reflexivity].
  assert (Hs : exp (InvertBaseUnit a) + exp (InvertBaseUnit h) = - (exp a + exp h))
    by (destruct a, h; simpl; lia).
  rewrite Hs.
  destruct (exp a + exp h =? 0) eqn:E.
  - apply Z.eqb_eq in E; rewrite E; reflexivity.
  - replace (- (exp a + exp h) =? 0) with false
      by (symmetry; apply Z.eqb_neq; apply Z.eqb_neq in E; lia).
    cbn [InvertUnit]; reflexivity.
Qed.

Lemma mentions_key_eq_of_exponents (x y : Unit) (k : BaseUnit) :
  keys_distinct x -> exps_nonzero x -> keys_distinct y -> exps_nonzero y ->
  exponent_of_key x k = exponent_of_key y k -> mentions_key x k = mentions_key y k.
Proof.
  intros Hkx Hnx Hky Hny E.
  pose proof (absent_iff_zero x k Hkx Hnx) as Ax.
  pose proof (absent_iff_zero y k Hky Hny) as Ay.
  destruct (mentions_key x k), (mentions_key y k); auto; exfalso.
  - assert (Hy : exponent_of_key y k = 0) by (apply Ay; reflexivity).
    discriminate (proj2 Ax (eq_trans E Hy)).
  - assert (Hx : exponent_of_key x k = 0) by (apply Ax; reflexivity).
    discriminate (proj2 Ay (eq_trans (eq_sym E) Hx)).
Qed.

End MoreUnitFacts.

Import MoreUnitFacts.

(** Multiplying by a unit that shares no descriptor key with the accumulator
    appends its descriptors in order; in particular [Unit<>] is a left
    identity for units with distinct keys. *)
Theorem MultiplyUnits_disjoint_append (ua ub : Unit) :
  keys_distinct ub -> (forall b, In b ub -> mentions_key ua b = false) ->
  MultiplyUnits ua ub = (ua ++ ub)%list.
Proof.
  revert ua; induction ub as [|hb tb IH]; intros ua Hk Hd; simpl.
  - rewrite app_nil_r; auto.
  - destruct Hk as [Hh Ht].
    rewrite MultiplyBaseUnitByUnit_fresh by (apply Hd; left; auto).
    rewrite IH; auto.
    + rewrite <- app_assoc; auto.
    + intros b Hb; rewrite mentions_key_app, Hd by (right; auto); simpl.
      rewrite (keys_distinct_not_in hb tb b Hh Hb); auto.
Qed.

Lemma MultiplyUnits_disjoint_append_witness :
  keys_distinct (MultiplyUnits meter second) /\
  MultiplyUnits [] (MultiplyUnits meter second) = MultiplyUnits meter second.
Proof.
  assert (H : keys_distinct (MultiplyUnits meter second)) by (simpl; auto).
  split; [exact H|].
  exact (MultiplyUnits_disjoint_append [] _ H (fun b _ => eq_refl)).
Defined.

(** Multiplication keeps a compound unit well formed: distinct descriptor
    keys and no zero exponent. *)
Theorem MultiplyUnits_keeps_wellformed (ua ub : Unit) :
  keys_distinct ua -> exps_nonzero ua -> exps_nonzero ub ->
  keys_distinct (MultiplyUnits ua ub) /\ exps_nonzero (MultiplyUnits ua ub).
Proof. apply wf_MultiplyUnits. Qed.

Lemma MultiplyUnits_keeps_wellformed_witness :
  (keys_distinct mile /\ exps_nonzero mile /\ exps_nonzero meter) /\
  keys_distinct (MultiplyUnits mile meter).
Proof.
  assert (H : keys_distinct mile /\ exps_nonzero mile /\ exps_nonzero meter)
    by (split; [simpl; auto | split; repeat constructor; discriminate]).
  split; [exact H|].
  destruct H as (H1 & H2 & H3).
  exact (proj1 (MultiplyUnits_keeps_wellformed mile meter H1 H2 H3)).
Defined.

(** [InvertUnit] is an involution. *)
Theorem InvertUnit_involutive (u : Unit) : InvertUnit (InvertUnit u) = u.
Proof.
  induction u as [|h t IH]; simpl; auto.
  rewrite InvertBaseUnit_involutive, IH; auto.
Qed.

(** Inverting a product is the product of the inverses, descriptor for
    descriptor and in the same order. *)
Theorem InvertUnit_MultiplyUnits (ua ub : Unit) :
  InvertUnit (MultiplyUnits ua ub) = MultiplyUnits (InvertUnit ua) (InvertUnit ub).
Proof.
  revert ua; induction ub as [|hb tb IH]; intros ua; simpl; auto.
  rewrite IH, InvertUnit_step; auto.
Qed.

(** Multiplication is associative and commutative up to descriptor keys:
    on well-formed units, [(A*B)*C] and [A*(B*C)], and [A*B] and [B*A],
    carry the same exponent on every key and mention the same keys. *)
Theorem MultiplyUnits_assoc_comm_by_key (ua ub uc : Unit) :
  keys_distinct ua -> exps_nonzero ua -> keys_distinct ub -> exps_nonzero ub ->
  exps_nonzero uc ->
  forall k,
    (exponent_of_key (MultiplyUnits (MultiplyUnits ua ub) uc) k
       = exponent_of_key (MultiplyUnits ua (MultiplyUnits ub uc)) k /\
     mentions_key (MultiplyUnits (MultiplyUnits ua ub) uc) k
       = mentions_key (MultiplyUnits ua (MultiplyUnits ub uc)) k) /\
    (exponent_of_key (MultiplyUnits ua ub) k = exponent_of_key (MultiplyUnits ub ua) k /\
     mentions_key (MultiplyUnits ua ub) k = mentions_key (MultiplyUnits ub ua) k).
Proof.
  intros Hka Hna Hkb Hnb Hnc k.
  destruct (wf_MultiplyUnits ua ub Hka Hna Hnb) as [Hkab Hnab].
  destruct (wf_MultiplyUnits ub ua Hkb Hnb Hna) as [Hkba Hnba].
  destruct (wf_MultiplyUnits ub uc Hkb Hnb Hnc) as [Hkbc Hnbc].
  destruct (wf_MultiplyUnits _ uc Hkab Hnab Hnc) as [Hk1 Hn1].
  destruct (wf_MultiplyUnits ua _ Hka Hna Hnbc) as [Hk2 Hn2].
  assert (E1 : exponent_of_key (MultiplyUnits (MultiplyUnits ua ub) uc) k
               = exponent_of_key (MultiplyUnits ua (MultiplyUnits ub uc)) k)
    by (rewrite !exponent_of_key_MultiplyUnits; lia).
  assert (E2 : exponent_of_key (MultiplyUnits ua ub) k = exponent_of_key (MultiplyUnits ub ua) k)
    by (rewrite !exponent_of_key_MultiplyUnits; lia).
  split; split; auto; apply mentions_key_eq_of_exponents; auto.
Qed.

Lemma MultiplyUnits_assoc_comm_by_key_witness :
  (keys_distinct meter /\ exps_nonzero meter /\ keys_distinct second /\
   exps_nonzero second /\ exps_nonzero mile) /\
  mentions_key (MultiplyUnits (MultiplyUnits meter second) mile) (base_default "s")
  = mentions_key (MultiplyUnits meter (MultiplyUnits second mile)) (base_default "s").
Proof.
  assert (H : keys_distinct meter /\ exps_nonzero meter /\ keys_distinct second /\
              exps_nonzero second /\ exps_nonzero mile)
    by (repeat split; simpl; auto; repeat constructor; discriminate).
  split; [exact H|].
  destruct H as (H1 & H2 & H3 & H4 & H5).
  exact (proj2 (proj1 (MultiplyUnits_assoc_comm_by_key meter second mile
                         H1 H2 H3 H4 H5 (base_default "s")))).
Defined.

(** ** Quantities and [extra::ipow] *)

Section MoreQuantity.
Context {V : Type} `{FloatOps V}.

(** Dividing a quantity by one of the same unit cancels the unit: the result
    is the bare quotient of the raw values. *)
Theorem div_same_unit_bare (q1 q2 : Quantity V) :
  UnitType q1 = UnitType q2 -> div q1 q2 = Bare (fdiv (raw_value q1) (raw_value q2)).
Proof.
  intros E; unfold div, DivideUnits; rewrite E, MultiplyUnits_InvertUnit; reflexivity.
Qed.

End MoreQuantity.

Lemma div_same_unit_bare_witness :
  UnitType (mk_Quantity meter_per_second (3 : Q)) = UnitType (mk_Quantity meter_per_second (4 : Q)) /\
  div (mk_Quantity meter_per_second (3 : Q)) (mk_Quantity meter_per_second (4 : Q))
  = Bare (fdiv (3 : Q) (4 : Q)).
Proof.
  split; [reflexivity|].
  exact (div_same_unit_bare (mk_Quantity meter_per_second (3 : Q))
           (mk_Quantity meter_per_second (4 : Q)) eq_refl).
Defined.

Ltac qops := cbv [fadd fsub fmul fdiv fneg fofZ Q_FloatOps inject_Z] in *.

Module PowFacts.

Lemma Qpower_add_nonneg (a : Q) (n m : Z) :
  0 <= n -> 0 <= m -> (a ^ (n + m) == a ^ n * a ^ m)%Q.
Proof.
  intros Hn Hm; destruct (Z.eq_dec (n + m) 0) as [E|E].
  - assert (n = 0) by lia; assert (m = 0) by lia; subst; simpl; ring.
  - apply Qpower_plus'; exact E.
Qed.

(** The loop invariant of [ipow]: [res * base ^ exp] is constant. *)
Lemma ipow_loop_Qpower (fuel : nat) (res base : Q) (e : Z) :
  0 <= e -> (Z.to_nat e <= fuel)%nat -> (ipow_loop fuel res base e == res * base ^ e)%Q.
Proof.
  revert res base e; induction fuel as [|f IH]; intros res base e He Hf; simpl.
  - assert (e = 0) by lia; subst; simpl; ring.
  - destruct (Z.ltb_spec 0 e) as [Hp|Hp].
    + assert (Hd : e = 2 * (e / 2) + e mod 2) by (apply Z.div_mod; lia).
      assert (Hm : 0 <= e mod 2 < 2) by (apply Z.mod_pos_bound; lia).
      assert (Hq : 0 <= e / 2) by (apply Z.div_pos; lia).
      assert (Hlt : e / 2 < e) by (apply Z.div_lt; lia).
      rewrite IH by lia.
      qops.
      rewrite Qmult_power, <- Qpower_add_nonneg by lia.
      destruct (Z.eqb_spec (e mod 2) 1) as [H1|H1].
      * assert (Ee : (base ^ e == base ^ (e / 2 + e / 2) * base ^ 1)%Q).
        { rewrite <- Qpower_add_nonneg by lia.
          replace (e / 2 + e / 2 + 1) with e by lia; reflexivity. }
        rewrite Ee, Qpower_1_r; ring.
      * replace (e / 2 + e / 2) with e by lia; reflexivity.
    + assert (e = 0) by lia; subst; simpl; ring.
Qed.

End PowFacts.


(** ** The v0.2 engine *)

Module V02Facts.
Import v02.

Lemma same_but_exp_to_base_unit (d h : Dim) :
  extra.same_but_exp (to_base_unit d) (to_base_unit h) = String.eqb (name d) (name h).
Proof.
  unfold extra.same_but_exp, to_base_unit; simpl.
  destruct (String.eqb (name d) (name h)); reflexivity.
Qed.

Lemma AddDimToUnit_to_base (d : Dim) (u : Unit) :
  map to_base_unit (AddDimToUnit d u)
  = extra.MultiplyBaseUnitByUnit (to_base_unit d) (map to_base_unit u).
Proof.
  induction u as [|h t IH]; simpl; auto.
  rewrite same_but_exp_to_base_unit.
  destruct (String.eqb (name d) (name h)); simpl.
  - destruct (dexp d + dexp h =? 0); reflexivity.
  - rewrite IH; reflexivity.
Qed.

Lemma InvertUnit_to_base (u : Unit) :
  map to_base_unit (InvertUnit u) = extra.InvertUnit (map to_base_unit u).
Proof. induction u as [|h t IH]; simpl; f_equal; auto. Qed.

Lemma MultiplyUnits_to_base (ua ub : Unit) :
  map to_base_unit (MultiplyUnits ua ub)
  = extra.MultiplyUnits (map to_base_unit ua) (map to_base_unit ub).
Proof.
  revert ua; induction ub as [|hb tb IH]; intros ua; simpl; auto.
  rewrite IH, AddDimToUnit_to_base; reflexivity.
Qed.

Lemma exponent_in_to_base (u : Unit) (s : string) :
  exponent_in u s = extra.exponent_of_key (map to_base_unit u) (extra.base_default s).
Proof.
  induction u as [|h t IH]; simpl; auto.
  rewrite IH; f_equal.
  unfold extra.same_but_exp; simpl.
  rewrite (String.eqb_sym s (name h)).
  destruct (String.eqb (name h) s); reflexivity.
Qed.

Lemma mentions_to_base (u : Unit) (s : string) :
  mentions u s = extra.mentions_key (map to_base_unit u) (extra.base_default s).
Proof.
  unfold mentions, extra.mentions_key; induction u as [|h t IH]; simpl; auto.
  rewrite IH; f_equal.
  unfold extra.same_but_exp; simpl.
  rewrite (String.eqb_sym s (name h)).
  destruct (String.eqb (name h) s); reflexivity.
Qed.

Lemma names_distinct_to_base (u : Unit) :
  names_distinct u -> extra.keys_distinct (map to_base_unit u).
Proof.
  induction u as [|h t IH]; simpl; auto.
  intros [Hh Ht]; split; auto.
  rewrite mentions_to_base in Hh.
  rewrite <- Hh; apply mentions_key_congr.
  unfold extra.same_but_exp; simpl; rewrite String.eqb_refl; reflexivity.
Qed.

Lemma dexps_nonzero_to_base (u : Unit) :
  dexps_nonzero u -> extra.exps_nonzero (map to_base_unit u).
Proof.
  unfold dexps_nonzero, extra.exps_nonzero; intros Hn.
  apply Forall_map; eapply Forall_impl; [|exact Hn]; simpl; auto.
Qed.

End V02Facts.

Import V02Facts.

(** v0.2 multiplication is v0.16 multiplication on descriptors with default
    metadata: the v0.2 [Dim<Name, Exp>] maps to [BaseUnit<Name>] with
    exponent [Exp], and the map commutes with [MultiplyUnits]. *)
Theorem v02_MultiplyUnits_embeds (ua ub : v02.Unit) :
  map v02.to_base_unit (v02.MultiplyUnits ua ub)
  = MultiplyUnits (map v02.to_base_unit ua) (map v02.to_base_unit ub).
Proof. apply MultiplyUnits_to_base. Qed.

(** In v0.2 the exponents of the product add up name by name. *)
Theorem v02_exponent_additive (ua ub : v02.Unit) (s : string) :
  v02.exponent_in (v02.MultiplyUnits ua ub) s = v02.exponent_in ua s + v02.exponent_in ub s.
Proof.
  rewrite !exponent_in_to_base, MultiplyUnits_to_base.
  apply exponent_of_key_MultiplyUnits.
Qed.

(** In v0.2, whose dimensions carry nothing but a name, a name is absent from
    a product of well-formed units exactly when its exponents sum to 0. *)
Theorem v02_absent_iff_zero (ua ub : v02.Unit) (s : string) :
  v02.names_distinct ua -> v02.dexps_nonzero ua -> v02.dexps_nonzero ub ->
  (v02.mentions (v02.MultiplyUnits ua ub) s = false <->
   v02.exponent_in ua s + v02.exponent_in ub s = 0).
Proof.
  intros Hk Hn Hb.
  rewrite mentions_to_base, !exponent_in_to_base, MultiplyUnits_to_base.
  rewrite <- exponent_of_key_MultiplyUnits.
  destruct (wf_MultiplyUnits (map v02.to_base_unit ua) (map v02.to_base_unit ub))
    as [Hk' Hn']; auto using names_distinct_to_base, dexps_nonzero_to_base.
  apply absent_iff_zero; auto.
Qed.

Lemma v02_absent_iff_zero_witness :
  (v02.names_distinct [v02.mk_Dim "m" 1; v02.mk_Dim "s" (-1)] /\
   v02.dexps_nonzero [v02.mk_Dim "m" 1; v02.mk_Dim "s" (-1)] /\
   v02.dexps_nonzero [v02.mk_Dim "s" 1]) /\
  (v02.mentions (v02.MultiplyUnits [v02.mk_Dim "m" 1; v02.mk_Dim "s" (-1)]
                                   [v02.mk_Dim "s" 1]) "s" = false <->
   v02.exponent_in [v02.mk_Dim "m" 1; v02.mk_Dim "s" (-1)] "s"
   + v02.exponent_in [v02.mk_Dim "s" 1] "s" = 0).
Proof.
  assert (H : v02.names_distinct [v02.mk_Dim "m" 1; v02.mk_Dim "s" (-1)] /\
              v02.dexps_nonzero [v02.mk_Dim "m" 1; v02.mk_Dim "s" (-1)] /\
              v02.dexps_nonzero [v02.mk_Dim "s" 1])
    by (split; [simpl; auto | split; repeat constructor; simpl; discriminate]).
  split; [exact H|].
  destruct H as (H1 & H2 & H3).
  exact (v02_absent_iff_zero _ _ "s" H1 H2 H3).
Defined.

(** In v0.2, [DivideUnits<U, U>] is [Unit<>] for every unit. *)
Theorem v02_DivideUnits_self (u : v02.Unit) : v02.DivideUnits u u = [].
Proof.
  unfold v02.DivideUnits.
  assert (E : map v02.to_base_unit (v02.MultiplyUnits u (v02.InvertUnit u)) = []).
  { rewrite MultiplyUnits_to_base, InvertUnit_to_base; apply MultiplyUnits_InvertUnit. }
  destruct (v02.MultiplyUnits u (v02.InvertUnit u)); [reflexivity | discriminate].
Qed.


(** ** [Matrix], [Vector] and [Vector3] *)

Module StorageFacts.
Import linalg.

Section Writes.
Context {V : Type} `{FloatOps V}.

Lemma length_set_nth (l : list V) (i : nat) (v : V) : length (set_nth l i v) = length l.
Proof. revert i; induction l as [|h t IH]; intros [|i]; simpl; auto. Qed.

Lemma nth_set_nth_same (l : list V) (i : nat) (v d : V) :
  (i < length l)%nat -> nth i (set_nth l i v) d = v.
Proof.
  revert i; induction l as [|h t IH]; intros [|i] Hi; simpl in *; try lia; auto;
    apply IH; lia.
Qed.

Lemma nth_set_nth_other (l : list V) (i j : nat) (v d : V) :
  i <> j -> nth j (set_nth l i v) d = nth j l d.
Proof.
  revert i j; induction l as [|h t IH]; intros [|i] [|j] Hij; simpl; auto; try lia;
    apply IH; lia.
Qed.

Lemma writes_length (ps : list (nat * V)) (init : list V) :
  length (fold_left (fun acc p => set_nth acc (fst p) (snd p)) ps init) = length init.
Proof.
  revert init; induction ps as [|p ps IH]; intros init; simpl; auto.
  rewrite IH, length_set_nth; auto.
Qed.

Lemma writes_notin (ps : list (nat * V)) (init : list V) (j : nat) (d : V) :
  ~ In j (map fst ps) ->
  nth j (fold_left (fun acc p => set_nth acc (fst p) (snd p)) ps init) d = nth j init d.
Proof.
  revert init; induction ps as [|[i w] ps IH]; intros init Hj; simpl in *; auto.
  rewrite IH by tauto; apply nth_set_nth_other; tauto.
Qed.

(** A slot written, always with the same value, holds that value. *)
Lemma writes_in (ps : list (nat * V)) (init : list V) (j : nat) (v d : V) :
  (j < length init)%nat -> In (j, v) ps -> (forall w, In (j, w) ps -> w = v) ->
  nth j (fold_left (fun acc p => set_nth acc (fst p) (snd p)) ps init) d = v.
Proof.
  revert init; induction ps as [|[i w] ps IH]; intros init Hj Hin Hu; simpl in *; [tauto|].
  destruct (in_dec Nat.eq_dec j (map fst ps)) as [Hm|Hm].
  - apply in_map_iff in Hm as [[j' w'] [Ej Hw]]; simpl in Ej; subst j'.
    assert (w' = v) by (apply Hu; right; exact Hw); subst w'.
    apply IH; auto; rewrite length_set_nth; auto.
  - destruct Hin as [E|Hin].
    + injection E as -> ->.
      rewrite writes_notin by exact Hm; apply nth_set_nth_same; auto.
    + exfalso; apply Hm; apply in_map_iff; exists (j, v); auto.
Qed.

Lemma for_loop_writes (n : nat) (f : nat -> nat) (g : nat -> V) (init : list V) :
  for_loop n (fun i res => set_nth res (f i) (g i)) init
  = fold_left (fun acc p => set_nth acc (fst p) (snd p))
      (map (fun i => (f i, g i)) (seq 0 n)) init.
Proof.
  unfold for_loop; generalize (seq 0 n) as l; intros l.
  revert init; induction l as [|a l IH]; intros init; simpl; auto.
Qed.

Lemma for_loop_nested_writes (A B : nat) (f : nat -> nat -> nat) (g : nat -> nat -> V)
    (init : list V) :
  for_loop A (fun a res => for_loop B (fun b res => set_nth res (f a b) (g a b)) res) init
  = fold_left (fun acc p => set_nth acc (fst p) (snd p))
      (flat_map (fun a => map (fun b => (f a b, g a b)) (seq 0 B)) (seq 0 A)) init.
Proof.
  unfold for_loop at 1; generalize (seq 0 A) as l; intros l.
  revert init; induction l as [|a l IH]; intros init; simpl; auto.
  rewrite fold_left_app, <- IH, <- for_loop_writes; reflexivity.
Qed.

(** The value written at slot [idx a b] of a zero-initialised array by a
    doubly nested loop whose slots are distinct. *)
Lemma nested_write_at (A B n : nat) (idx : nat -> nat -> nat) (g : nat -> nat -> V)
    (a b : nat) :
  (a < A)%nat -> (b < B)%nat -> (idx a b < n)%nat ->
  (forall a' b', (a' < A)%nat -> (b' < B)%nat -> idx a' b' = idx a b -> a' = a /\ b' = b) ->
  at_ (for_loop A (fun a res => for_loop B (fun b res => set_nth res (idx a b) (g a b)) res)
         (zeros n)) (idx a b) = g a b.
Proof.
  intros Ha Hb Hn Hu; unfold at_.
  rewrite for_loop_nested_writes; apply writes_in.
  - unfold zeros; rewrite repeat_length; exact Hn.
  - apply in_flat_map; exists a; split; [apply in_seq; lia|].
    apply in_map_iff; exists b; split; [reflexivity | apply in_seq; lia].
  - intros w Hw; apply in_flat_map in Hw as [a' [Ha' Hw]].
    apply in_map_iff in Hw as [b' [E Hb']].
    apply in_seq in Ha', Hb'; injection E as Ei Ew.
    destruct (Hu a' b') as [-> ->]; auto; lia.
Qed.

Lemma single_write_at (n : nat) (g : nat -> V) (i : nat) :
  (i < n)%nat -> at_ (for_loop n (fun i res => set_nth res i (g i)) (zeros n)) i = g i.
Proof.
  intros Hi; unfold at_; rewrite for_loop_writes; apply writes_in.
  - unfold zeros; rewrite repeat_length; exact Hi.
  - apply in_map_iff; exists i; split; [reflexivity | apply in_seq; lia].
  - intros w Hw; apply in_map_iff in Hw as [i' [E _]]; injection E as -> ->; reflexivity.
Qed.

End Writes.

(** Row-major slots are distinct. *)
Lemma slot_inj (W r c r' c' : nat) :
  (c < W)%nat -> (c' < W)%nat -> (r' * W + c' = r * W + c)%nat -> r' = r /\ c' = c.
Proof.
  intros Hc Hc' E.
  assert (Er : r' = ((r * W + c) / W)%nat) by (apply (Nat.div_unique _ _ _ c'); lia).
  assert (Er2 : r = ((r * W + c) / W)%nat) by (apply (Nat.div_unique _ _ _ c); lia).
  split; [congruence|].
  assert (r' = r) by congruence; subst r'; lia.
Qed.

Section Entries.
Context {V : Type} `{FloatOps V}.

Lemma transposed_get (Rows Cols : nat) (m : list V) (r c : nat) :
  (r < Rows)%nat -> (c < Cols)%nat ->
  get Rows (transposed Rows Cols m) c r = get Cols m r c.
Proof.
  intros Hr Hc; unfold transposed, get at 1, set.
  apply (nested_write_at Rows Cols (Cols * Rows) (fun r c => c * Rows + r)%nat
           (fun r c => get Cols m r c)); auto; [nia|].
  intros r' c' Hr' Hc' E; destruct (slot_inj Rows c r c' r') as [-> ->]; auto.
Qed.

Lemma transposed_length (Rows Cols : nat) (m : list V) :
  length (transposed Rows Cols m) = (Cols * Rows)%nat.
Proof.
  unfold transposed, set; rewrite for_loop_nested_writes, writes_length.
  unfold zeros; apply repeat_length.
Qed.

Lemma mul_get (Rows Cols OtherCols : nat) (m o : list V) (r c : nat) :
  (r < Rows)%nat -> (c < OtherCols)%nat ->
  get OtherCols (mul Rows Cols OtherCols m o) r c
  = for_loop Cols (fun k sum => fadd sum (fmul (get Cols m r k) (get OtherCols o k c))) (fofZ 0).
Proof.
  intros Hr Hc; unfold mul, get at 1, set.
  apply (nested_write_at Rows OtherCols (Rows * OtherCols) (fun r c => r * OtherCols + c)%nat
           (fun r c => for_loop Cols (fun k sum =>
              fadd sum (fmul (get Cols m r k) (get OtherCols o k c))) (fofZ 0))); auto; [nia|].
  intros r' c' Hr' Hc' E; apply (slot_inj OtherCols r c r' c'); auto.
Qed.

Lemma Identity_get (N : nat) (i j : nat) :
  (i < N)%nat -> (j < N)%nat ->
  get N (Identity N) i j = if Nat.eqb i j then fofZ 1 else fofZ 0.
Proof.
  intros Hi Hj; unfold Identity, get, set, at_.
  rewrite for_loop_writes; destruct (Nat.eqb_spec i j) as [<-|Hij].
  - apply writes_in.
    + unfold zeros; rewrite repeat_length; nia.
    + apply in_map_iff; exists i; split; [reflexivity | apply in_seq; lia].
    + intros w Hw; apply in_map_iff in Hw as [k [E _]]; injection E as _ ->; reflexivity.
  - rewrite writes_notin.
    + unfold zeros; apply nth_repeat.
    + rewrite map_map; simpl; intros Hin; apply in_map_iff in Hin as [k [E Hk]].
      apply in_seq in Hk.
      destruct (slot_inj N i j k k) as [-> ->]; auto; lia.
Qed.

Lemma vsub_at (N : nat) (a b : list V) (i : nat) :
  (i < N)%nat -> at_ (vsub N a b) i = fsub (at_ a i) (at_ b i).
Proof. apply (single_write_at N (fun i => fsub (at_ a i) (at_ b i))). Qed.

Lemma vscale_at (N : nat) (a : list V) (s : V) (i : nat) :
  (i < N)%nat -> at_ (vscale N a s) i = fmul (at_ a i) s.
Proof. apply (single_write_at N (fun i => fmul (at_ a i) s)). Qed.

End Entries.

(** Sums over [for_loop] on rationals. *)
Lemma for_loop_S {A : Type} (n : nat) (body : nat -> A -> A) (s : A) :
  for_loop (S n) body s = body n (for_loop n body s).
Proof. unfold for_loop; rewrite seq_S, fold_left_app; reflexivity. Qed.

Lemma sum_ext (n : nat) (f g : nat -> Q) (s s' : Q) :
  (s == s')%Q -> (forall k, (k < n)%nat -> (f k == g k)%Q) ->
  (for_loop n (fun k sum => fadd sum (f k)) s == for_loop n (fun k sum => fadd sum (g k)) s')%Q.
Proof.
  intros Hs; induction n as [|n IH]; intros Hfg; [exact Hs|].
  rewrite !for_loop_S; cbv [fadd Q_FloatOps].
  apply Qplus_comp; [apply IH; intros; apply Hfg; lia | apply Hfg; lia].
Qed.

Lemma sum_lin (n : nat) (f g : nat -> Q) (s : Q) :
  (for_loop n (fun k sum => fadd sum (f k - s * g k)) 0
   == for_loop n (fun k sum => fadd sum (f k)) 0 - s * for_loop n (fun k sum => fadd sum (g k)) 0)%Q.
Proof.
  induction n as [|n IH]; [unfold for_loop; simpl; ring|].
  rewrite !for_loop_S; qops.
  rewrite IH; ring.
Qed.

Lemma sum_indicator (n r : nat) (f : nat -> Q) :
  (for_loop n (fun k sum => fadd sum ((if Nat.eqb r k then 1 else 0) * f k)) 0
   == if Nat.ltb r n then f r else 0)%Q.
Proof.
  induction n as [|n IH]; [unfold for_loop; simpl; reflexivity|].
  rewrite for_loop_S; qops; rewrite IH.
  destruct (Nat.ltb_spec r n), (Nat.ltb_spec r (S n)), (Nat.eqb_spec r n);
    subst; try lia; ring.
Qed.

End StorageFacts.

Import linalg StorageFacts.

Module VectorFacts.

Lemma dot_vsub_vscale (N : nat) (a b c : list Q) (s : Q) :
  (dot N (vsub N a (vscale N b s)) c == dot N a c - s * dot N b c)%Q.
Proof.
  unfold dot.
  transitivity (for_loop N (fun k sum =>
    fadd sum (at_ a k * at_ c k - s * (at_ b k * at_ c k))) 0)%Q.
  - apply sum_ext; [reflexivity|]; intros k Hk; cbv beta.
    rewrite vsub_at, vscale_at by lia; qops; ring.
  - apply (sum_lin N (fun k => at_ a k * at_ c k) (fun k => at_ b k * at_ c k) s)%Q.
Qed.

End VectorFacts.

(** [transposed()] swaps row and column: entry [(c, r)] of the result is
    entry [(r, c)] of the source. *)
Theorem transposed_swaps_entries {V : Type} `{FloatOps V}
    (Rows Cols : nat) (m : list V) (r c : nat) :
  (r < Rows)%nat -> (c < Cols)%nat ->
  get Rows (transposed Rows Cols m) c r = get Cols m r c.
Proof. apply transposed_get. Qed.

Lemma transposed_swaps_entries_witness :
  ((1 < 2)%nat /\ (2 < 3)%nat) /\
  get 2 (transposed 2 3 [1; 2; 3; 4; 5; 6]%Q) 2 1 = get 3 [1; 2; 3; 4; 5; 6]%Q 1 2.
Proof.
  split; [lia|].
  apply (transposed_swaps_entries 2 3 [1; 2; 3; 4; 5; 6]%Q 1 2); lia.
Defined.

(** Transposing twice gives back the matrix. *)
Theorem transposed_involutive {V : Type} `{FloatOps V} (Rows Cols : nat) (m : list V) :
  length m = (Rows * Cols)%nat -> transposed Cols Rows (transposed Rows Cols m) = m.
Proof.
  intros Hl; apply nth_ext with (d := fofZ 0) (d' := fofZ 0).
  - rewrite transposed_length; lia.
  - intros j Hj; rewrite transposed_length in Hj.
    assert (HC : Cols <> 0%nat) by (intros ->; lia).
    assert (Ej : j = (j / Cols * Cols + j mod Cols)%nat)
      by (rewrite Nat.mul_comm; apply Nat.div_mod; exact HC).
    assert (Hc : (j mod Cols < Cols)%nat) by (apply Nat.mod_upper_bound; exact HC).
    assert (Hr : (j / Cols < Rows)%nat) by (apply Nat.Div0.div_lt_upper_bound; lia).
    change (nth j (transposed Cols Rows (transposed Rows Cols m)) (fofZ 0)
            = nth j m (fofZ 0)) with
      (at_ (transposed Cols Rows (transposed Rows Cols m)) j = at_ m j).
    rewrite Ej.
    change (get Cols (transposed Cols Rows (transposed Rows Cols m)) (j / Cols) (j mod Cols)
            = get Cols m (j / Cols) (j mod Cols)).
    rewrite !transposed_get by lia; reflexivity.
Qed.

Lemma transposed_involutive_witness :
  length [1; 2; 3; 4; 5; 6]%Q = (2 * 3)%nat /\
  transposed 3 2 (transposed 2 3 [1; 2; 3; 4; 5; 6]%Q) = [1; 2; 3; 4; 5; 6]%Q.
Proof.
  split; [reflexivity|].
  apply (transposed_involutive 2 3); reflexivity.
Defined.



(** The transpose of a product is the product of the transposes in the
    opposite order. *)
Theorem transposed_mul (Rows Cols OtherCols : nat) (a b : list Q) (r c : nat) :
  (r < Rows)%nat -> (c < OtherCols)%nat ->
  (get Rows (transposed Rows OtherCols (mul Rows Cols OtherCols a b)) c r
   == get Rows (mul OtherCols Cols Rows (transposed Cols OtherCols b)
                  (transposed Rows Cols a)) c r)%Q.
Proof.
  intros Hr Hc.
  rewrite transposed_get by lia; rewrite !mul_get by lia.
  apply sum_ext; [reflexivity|]; intros k Hk; cbv beta.
  rewrite !transposed_get by lia; qops; ring.
Qed.

Lemma transposed_mul_witness :
  ((0 < 2)%nat /\ (1 < 2)%nat) /\
  (get 2 (transposed 2 2 (mul 2 2 2 [1; 2; 3; 4]%Q [5; 6; 7; 8]%Q)) 1 0
   == get 2 (mul 2 2 2 (transposed 2 2 [5; 6; 7; 8]%Q) (transposed 2 2 [1; 2; 3; 4]%Q)) 1 0)%Q.
Proof.
  split; [lia|].
  apply (transposed_mul 2 2 2 [1; 2; 3; 4]%Q [5; 6; 7; 8]%Q 0 1); lia.
Defined.

(** [Identity()] is a unit for [operator*] on both sides. *)
Theorem Identity_mul (Rows Cols : nat) (a : list Q) (r c : nat) :
  (r < Rows)%nat -> (c < Cols)%nat ->
  (get Cols (mul Rows Rows Cols (Identity Rows) a) r c == get Cols a r c)%Q /\
  (get Cols (mul Rows Cols Cols a (Identity Cols)) r c == get Cols a r c)%Q.
Proof.
  intros Hr Hc; rewrite !mul_get by lia; split.
  - transitivity (for_loop Rows (fun k sum =>
      fadd sum ((if Nat.eqb r k then 1 else 0) * get Cols a k c)) 0)%Q.
    + apply sum_ext; [reflexivity|]; intros k Hk; cbv beta.
      rewrite Identity_get by lia; qops; destruct (Nat.eqb r k); reflexivity.
    + rewrite (sum_indicator Rows r (fun k => get Cols a k c)).
      destruct (Nat.ltb_spec r Rows); [reflexivity | lia].
  - transitivity (for_loop Cols (fun k sum =>
      fadd sum ((if Nat.eqb c k then 1 else 0) * get Cols a r k)) 0)%Q.
    + apply sum_ext; [reflexivity|]; intros k Hk; cbv beta.
      rewrite Identity_get, Nat.eqb_sym by lia; qops; destruct (Nat.eqb c k); ring.
    + rewrite (sum_indicator Cols c (fun k => get Cols a r k)).
      destruct (Nat.ltb_spec c Cols); [reflexivity | lia].
Qed.

Lemma Identity_mul_witness :
  ((1 < 2)%nat /\ (0 < 3)%nat) /\
  (get 3 (mul 2 2 3 (Identity 2) [1; 2; 3; 4; 5; 6]%Q) 1 0 == get 3 [1; 2; 3; 4; 5; 6]%Q 1 0)%Q.
Proof.
  split; [lia|].
  apply (Identity_mul 2 3 [1; 2; 3; 4; 5; 6]%Q 1 0); lia.
Defined.








Module MoreStorageFacts.

Lemma for_loop_ext {A : Type} (n : nat) (b1 b2 : nat -> A -> A) (s : A) :
  (forall k acc, (k < n)%nat -> b1 k acc = b2 k acc) -> for_loop n b1 s = for_loop n b2 s.
Proof.
  induction n as [|n IH]; intros Hb; [reflexivity|].
  rewrite !for_loop_S, IH by (intros; apply Hb; lia); apply Hb; lia.
Qed.

End MoreStorageFacts.

(** [Matrix * Vector] is the matrix product with the vector taken as a
    one-column matrix. *)
Theorem mul_vec_is_column_product {V : Type} `{FloatOps V} (Rows Cols : nat)
    (m vec : list V) (r : nat) :
  (r < Rows)%nat -> at_ (mul_vec Rows Cols m vec) r = get 1 (mul Rows Cols 1 m vec) r 0.
Proof.
  intros Hr; rewrite mul_get by lia; unfold mul_vec; cbv zeta.
  rewrite (single_write_at Rows (fun r => for_loop Cols (fun k sum =>
             fadd sum (fmul (get Cols m r k) (at_ vec k))) (fofZ 0))) by exact Hr.
  apply MoreStorageFacts.for_loop_ext; intros k acc _.
  unfold get; rewrite Nat.mul_1_r, Nat.add_0_r; reflexivity.
Qed.

Lemma mul_vec_is_column_product_witness :
  (1 < 2)%nat /\
  at_ (mul_vec 2 2 [1; 2; 3; 4]%Q [5; 6]%Q) 1 = get 1 (mul 2 2 1 [1; 2; 3; 4]%Q [5; 6]%Q) 1 0.
Proof.
  split; [lia|].
  apply (mul_vec_is_column_product 2 2 [1; 2; 3; 4]%Q [5; 6]%Q 1); lia.
Defined.


(** v0.2 printing agrees with v0.16 printing on the embedded unit: a
    dimension prints as its name, then ["^" exp] unless the exponent is 1,
    joined by ["*"]. *)
Theorem v02_print_agrees (u : v02.Unit) :
  v02.dexps_nonzero u ->
  v02.print_unit_impl u = printing.print_unit_impl (map v02.to_base_unit u).
Proof.
  intros Hn; unfold v02.print_unit_impl, printing.print_unit_impl; rewrite length_map.
  generalize 0%nat as n; generalize (length u) as total.
  induction u as [|d t IH]; intros total n; simpl; auto.
  inversion Hn as [|? ? Hd Ht]; subst.
  rewrite IH by exact Ht; f_equal.
  unfold v02.print_single_dim, printing.print_base_unit; simpl.
  destruct (Z.eqb_spec (v02.dexp d) 0) as [E|E]; [contradiction|reflexivity].
Qed.

Lemma v02_print_agrees_witness :
  v02.dexps_nonzero [v02.mk_Dim "m" 1; v02.mk_Dim "s" (-2)] /\
  v02.print_unit_impl [v02.mk_Dim "m" 1; v02.mk_Dim "s" (-2)]
  = printing.print_unit_impl (map v02.to_base_unit [v02.mk_Dim "m" 1; v02.mk_Dim "s" (-2)]).
Proof.
  assert (H : v02.dexps_nonzero [v02.mk_Dim "m" 1; v02.mk_Dim "s" (-2)])
    by (repeat constructor; simpl; discriminate).
  split; [exact H|].
  exact (v02_print_agrees _ H).
Defined.
